(** * cxxutilities: CxxUtilities.hpp

    A shallow embedding of the helpers of [namespace cxxutils] and the
    properties of the enumerated dispatcher [constexpr_apply], of the
    numeric helpers [clamp], [min], [max], [range] and of the reference
    counted singleton [getOrCreate]. *)

From Stdlib Require Import ZArith List Bool Lia QArith Qround.
From stdpp Require Import base option list gmap fin_maps.
Import ListNotations.

Local Open Scope Z_scope.

(** [struct Range] (line 97).  The record lives in a module of its own so
    that its members keep the names [min] and [max] next to the free
    functions of the same names. *)
Module Range.
Record t (T : Type) : Type := mk { min : T; max : T }.
Arguments mk {T} _ _.
Arguments min {T} _.
Arguments max {T} _.
End Range.

Module cxxutils.

(** ** The dispatcher (lines 20-59) *)

Module detail.

(** What the handler returns when it is instantiated at the constant 0:
    [void], a [std::optional<T>], or a [T] that is no [std::optional]. *)
Inductive ReturnKind : Type :=
| ReturnsVoid
| ReturnsOptional (T : Type)
| ReturnsValue (T : Type).

(** [std::invoke_result_t<F, std::integral_constant<E, 0>>]; a call that
    returns [void] yields the one value of [unit]. *)
Definition LambdaReturnType (k : ReturnKind) : Type :=
  match k with
  | ReturnsVoid => unit
  | ReturnsOptional T => option T
  | ReturnsValue T => T
  end.

Definition hasVoidReturnType (k : ReturnKind) : bool :=
  match k with ReturnsVoid => true | _ => false end.

(** [OptionalUnpacker<LambdaReturnType>] (lines 23-25): one level of
    optional is removed, any other type is kept. *)
Definition OptionalUnpacker (k : ReturnKind) : Type :=
  match k with
  | ReturnsVoid => unit
  | ReturnsOptional T => T
  | ReturnsValue T => T
  end.

(** [std::conditional_t<hasVoidReturnType, bool,
    std::optional<OptionalUnpacker<LambdaReturnType>>>] (line 32). *)
Definition OurReturnType (k : ReturnKind) : Type :=
  if hasVoidReturnType k then bool else option (OptionalUnpacker k).

(** [OurReturnType result;] (line 34).  The default constructor of
    [std::optional] makes it empty.  Default initialisation of a [bool]
    writes nothing: [result] starts with the indeterminate content of
    its storage. *)
Definition default_initialized (k : ReturnKind) (indeterminate : bool)
    : OurReturnType k :=
  match k return OurReturnType k with
  | ReturnsVoid => indeterminate
  | ReturnsOptional T => None
  | ReturnsValue T => None
  end.

(** What the branch taken by [if constexpr (hasVoidReturnType)] stores
    into [result] once the handler returned [r]: [true] (line 43), or
    [r] itself, an optional as it is and a plain value wrapped
    (line 45). *)
Definition assigned (k : ReturnKind) : LambdaReturnType k -> OurReturnType k :=
  match k return LambdaReturnType k -> OurReturnType k with
  | ReturnsVoid => fun _ => true
  | ReturnsOptional T => fun r => r
  | ReturnsValue T => fun r => Some r
  end.

Section apply_helper.

(** [W] is the state the handler's side effects act on (a counter, a
    log, ...).  [F] is the closure type of the handler, with its move
    constructor [move] (the new object, and what is left in the source)
    and its call operator [call], which runs the instantiation for the
    constant it is given. *)
Context {W F : Type}.
Variable k : ReturnKind.
Variable move : F -> F * F.
Variable call : F -> Z -> W -> LambdaReturnType k * W.

(** The two locals the closures capture by reference. *)
Record Locals : Type := { result : OurReturnType k; hasValue : bool }.

(** The closure of lines 36-50 applied to
    [std::integral_constant<std::size_t, Is>].  [option_c] is
    [static_cast<E>(decltype(_)::value)]: a constant below a bound of
    type [E] is representable in [E], so the cast keeps its value. *)
Definition closure (value : Z) (lambda : F) (Is : nat)
    (loc : Locals) (w : W) : Locals * W :=
  let option_c := Z.of_nat Is in
  if negb (hasValue loc) && (option_c =? value) then
    let (r, w') := call lambda option_c w in
    ({| result := assigned k r; hasValue := true |}, w')
  else (loc, w).

(** The fold over the comma operator, left to right.  Every closure is
    built with [lambda = std::move(_lambda)]: it owns the object moved
    out of [_lambda], and the next closure moves from what was left. *)
Fixpoint comma_fold (value : Z) (_lambda : F) (Is : list nat)
    (loc : Locals) (w : W) : Locals * W :=
  match Is with
  | [] => (loc, w)
  | i :: rest =>
      let (lambda, moved_from) := move _lambda in
      let (loc', w') := closure value lambda i loc w in
      comma_fold value moved_from rest loc' w'
  end.

(** [apply_helper] (lines 28-53). *)
Definition apply_helper (indeterminate : bool) (value : Z) (_lambda : F)
    (Is : list nat) (w : W) : OurReturnType k * W :=
  let (loc, w') :=
    comma_fold value _lambda Is
      {| result := default_initialized k indeterminate; hasValue := false |} w in
  (result loc, w').

(** The handler object owned by the closure of the [i]-th constant. *)
Fixpoint capture (_lambda : F) (i : nat) : F :=
  match i with
  | O => fst (move _lambda)
  | S j => capture (snd (move _lambda)) j
  end.

End apply_helper.
End detail.

(** [std::make_index_sequence<static_cast<std::size_t>(Max)>()]. *)
Definition make_index_sequence (Max : nat) : list nat := seq 0 Max.

(** [constexpr_apply] (lines 56-59).  The bound [Max] is a template
    argument: a negative one does not compile. *)
Definition constexpr_apply {W F : Type} (k : detail.ReturnKind)
    (move : F -> F * F) (call : F -> Z -> W -> detail.LambdaReturnType k * W)
    (indeterminate : bool) (value : Z) (Max : nat) (lambda : F) (w : W)
    : detail.OurReturnType k * W :=
  detail.apply_helper k move call indeterminate value lambda
    (make_index_sequence Max) w.

(** [std::optional::has_value]. *)
Definition has_value {T : Type} (o : option T) : bool :=
  match o with Some _ => true | None => false end.

(** A handler instrumented with a log of the constants it ran for. *)
Definition logged {W F R : Type} (call : F -> Z -> W -> R * W)
    (f : F) (c : Z) (s : W * list Z) : R * (W * list Z) :=
  let (r, w') := call f c (fst s) in (r, (w', snd s ++ [c])).

(** The move constructor of a closure whose captures are references or
    scalars: a copy. *)
Definition copy {F : Type} (f : F) : F * F := (f, f).

(** [value] lies in [[0, Max)]. *)
Definition in_domain (value : Z) (Max : nat) : bool :=
  (0 <=? value) && (value <? Z.of_nat Max).

(** ** min, max and clamp utilities (lines 97-104) *)

Section numeric.
Context {T : Type}.
(** [operator<] of [T]. *)
Variable lt : T -> T -> bool.

(** [std::min(a, b)] is [(b < a) ? b : a], [std::max(a, b)] is
    [(a < b) ? b : a]. *)
Definition std_min (a b : T) : T := if lt b a then b else a.
Definition std_max (a b : T) : T := if lt a b then b else a.

(** [Range::operator|=] *)
Definition or_assign (r : Range.t T) (value : T) : Range.t T :=
  Range.mk (std_min (Range.min r) value) (std_max (Range.max r) value).

Definition clamp (value : T) (range : Range.t T) : T :=
  std_min (std_max value (Range.min range)) (Range.max range).

(** The variadic [min] and [max]: the parameter pack is the list
    [args]; the overload for one argument ends the recursion. *)
Fixpoint min (arg0 : T) (args : list T) : T :=
  match args with
  | [] => arg0
  | arg1 :: rest => std_min arg0 (min arg1 rest)
  end.

Fixpoint max (arg0 : T) (args : list T) : T :=
  match args with
  | [] => arg0
  | arg1 :: rest => std_max arg0 (max arg1 rest)
  end.

Definition range (arg0 : T) (args : list T) : Range.t T :=
  Range.mk (min arg0 args) (max arg0 args).
End numeric.

End cxxutils.

(** ** Reference counted singleton (lines 113-130)

    [std::shared_ptr] and [std::weak_ptr] are modelled by their control
    blocks: an object the factory built is named by the number of the
    factory call that built it, and [heap] maps every object that is
    still alive to the number of [shared_ptr]s that own it.  An object
    whose last owner goes away is destroyed and leaves the heap. *)

Module singleton.

Record Process : Type := {
  heap : gmap nat nat;
  constructed : nat;      (* calls of [factory] so far *)
  guard : bool;           (* the static local [_weak] is initialised *)
  _weak : option nat      (* the control block [_weak] observes *)
}.

Definition initial : Process :=
  {| heap := ∅; constructed := 0%nat; guard := false; _weak := None |}.

Definition with_heap (h : gmap nat nat) (p : Process) : Process :=
  {| heap := h; constructed := constructed p; guard := guard p; _weak := _weak p |}.

(** [std::shared_ptr<Type>(factory(args...))]: one factory call, and a
    control block with one owner for what it built. *)
Definition shared_from_factory (p : Process) : nat * Process :=
  let id := constructed p in
  (id, {| heap := <[id := 1%nat]> (heap p); constructed := S id;
          guard := guard p; _weak := _weak p |}).

(** The destructor of a [shared_ptr], also run on the old value by an
    assignment; [None] is the empty pointer. *)
Definition shared_destroy (s : option nat) (p : Process) : Process :=
  match s with
  | None => p
  | Some id =>
      match heap p !! id with
      | Some (S (S n)) => with_heap (<[id := S n]> (heap p)) p
      | Some _ => with_heap (delete id (heap p)) p
      | None => p
      end
  end.

(** [weak_ptr::lock()]: a new owner when the object is alive, the empty
    pointer when it expired. *)
Definition weak_lock (p : Process) : option nat * Process :=
  match _weak p with
  | Some id =>
      match heap p !! id with
      | Some n => (Some id, with_heap (<[id := S n]> (heap p)) p)
      | None => (None, p)
      end
  | None => (None, p)
  end.

Definition assign_weak (s : nat) (p : Process) : Process :=
  {| heap := heap p; constructed := constructed p; guard := guard p;
     _weak := Some s |}.

(** The initialiser of the static local (lines 119-122), run by the first
    call only.  The lambda assigns a new instance to [_shared] and
    returns a copy of it; [_weak] is built from that copy, which is then
    destroyed: [_shared] is left as the one owner. *)
Definition static_init (p : Process) : option nat * Process :=
  if guard p then (None, p)
  else
    let (s, p1) := shared_from_factory p in
    (Some s, {| heap := heap p1; constructed := constructed p1;
                guard := true; _weak := Some s |}).

(** [getOrCreate] (lines 114-130).  [_shared] starts empty (line 118);
    the handle returned is the number of the object it owns.  On the
    first path [ptr] is returned and the local [_shared] is destroyed; on
    the second the assignment of line 127 destroys what [_shared] held
    and [_shared] itself is moved out as the result. *)
Definition getOrCreate (p : Process) : nat * Process :=
  let (_shared, p1) := static_init p in
  match weak_lock p1 with
  | (Some ptr, p2) => (ptr, shared_destroy _shared p2)
  | (None, p2) =>
      let (s, p3) := shared_from_factory p2 in
      let p4 := shared_destroy _shared p3 in
      (s, assign_weak s p4)
  end.

(** What a single-threaded caller does: ask for the instance, or let go
    of a handle it holds.  Between calls every owner of an object is a
    handle of the caller, so a release of an object that is not alive is
    no step of the caller and changes nothing. *)
Inductive Op : Type := Get | Release (handle : nat).

Definition step (p : Process) (o : Op) : Process :=
  match o with
  | Get => snd (getOrCreate p)
  | Release h => shared_destroy (Some h) p
  end.

Definition run (ops : list Op) : Process := fold_left step ops initial.

(** No object is alive, or one is and the static [_weak] observes it. *)
Definition at_most_one (p : Process) : Prop :=
  heap p = ∅ \/
  exists (id n : nat),
    heap p = {[id := S n]} /\ guard p = true /\ _weak p = Some id.

End singleton.

(** The position of the first constant of the scan equal to [value]. *)
Fixpoint first_match (value : Z) (Is : list nat) : option nat :=
  match Is with
  | [] => None
  | i :: rest =>
      if Z.of_nat i =? value then Some O
      else option_map S (first_match value rest)
  end.

(** ** Handlers used in the examples

    Their closures capture nothing: [F] is [unit]. *)

(** [[&counter] (auto) { ++counter; }] *)
Definition counting : unit -> Z -> nat -> unit * nat :=
  fun _ _ counter => (tt, S counter).

(** [[] (auto) {}] *)
Definition silent : unit -> Z -> unit -> unit * unit :=
  fun _ _ w => (tt, w).

(** [[] (auto c) { return 2 * c; }] *)
Definition doubled : unit -> Z -> unit -> Z * unit :=
  fun _ c w => (2 * c, w).

(** [[] (auto) { return 7; }] *)
Definition seven : unit -> Z -> unit -> Z * unit :=
  fun _ _ w => (7, w).

(** [[&counter] (auto) -> std::optional<int> { ++counter; return {}; }] *)
Definition declining : unit -> Z -> nat -> option Z * nat :=
  fun _ _ counter => (None, S counter).

(** A closure that owns what it captured, as [[k = std::vector<int>{5}]
    (auto) { return k.size(); }] does: [Some] of the size while it owns
    the vector, [None] once it was moved from, when the vector is
    empty. *)
Definition move_out (f : option Z) : option Z * option Z := (f, None).

Definition owned_size : option Z -> Z -> unit -> Z * unit :=
  fun f _ w => (match f with Some n => n | None => 0 end, w).

(** The reading of C5: whenever one call dispatches to a handler that
    returns an empty optional and another call does not dispatch, the
    presence flags of the two results differ. *)
Definition presence_tells_dispatch {W F T : Type} (move : F -> F * F)
    (call : F -> Z -> W -> option T * W) (Max : nat) (lambda : F) (w : W)
    : Prop :=
  forall (indeterminate : bool) (value value' : Z),
    cxxutils.in_domain value Max = true ->
    fst (call (cxxutils.detail.capture move lambda (Z.to_nat value)) value w)
      = None ->
    cxxutils.in_domain value' Max = false ->
    cxxutils.has_value
      (fst (cxxutils.constexpr_apply (cxxutils.detail.ReturnsOptional T) move
              call indeterminate value Max lambda w)) <>
    cxxutils.has_value
      (fst (cxxutils.constexpr_apply (cxxutils.detail.ReturnsOptional T) move
              call indeterminate value' Max lambda w)).

(** A handler without side effects whose result does not depend on the
    state either. *)
Definition pure_handler {W F R : Type} (call : F -> Z -> W -> R * W) : Prop :=
  forall (f : F) (c : Z) (w w0 : W),
    snd (call f c w) = w /\ fst (call f c w) = fst (call f c w0).

(** ** The overload [clamp(value, absMax)] (line 99)

    The lower bound is [static_cast<T>(-1) * absMax], computed in [T]:
    [minus_one] is the cast and [mul] the product of [T]. *)

Section clamp_absMax.
Context {T : Type}.
Variable lt : T -> T -> bool.
Variable minus_one : T.
Variable mul : T -> T -> T.

Definition clamp_absMax (value absMax : T) : T :=
  cxxutils.clamp lt value (Range.mk (mul minus_one absMax) absMax).
End clamp_absMax.

(** [T] a signed integer type: the product is the one of the integers
    for every [absMax] but the least value of [T], whose negation
    overflows. *)
Definition clamp_absMax_signed (value absMax : Z) : Z :=
  clamp_absMax Z.ltb (-1) Z.mul value absMax.

(** [T] an unsigned integer type of [w] bits ([unsigned], [unsigned
    long], ...): the cast of -1 and the product wrap modulo [2 ^ w]. *)
Definition clamp_absMax_unsigned (w : Z) (value absMax : Z) : Z :=
  clamp_absMax Z.ltb ((-1) mod 2 ^ w) (fun a b => (a * b) mod 2 ^ w)
    value absMax.

(** ** [dround] (line 110)

    [T] is a floating-point type.  On its finite values, which are
    rationals, [std::ceil], [std::floor] and the comparison with 0 are
    exact, so the function is the one on the rationals. *)
Definition dround (x dir : Q) : Q :=
  if Qle_bool 0 dir then inject_Z (Qceiling x) else inject_Z (Qfloor x).

(** ** The caller of [getOrCreate]

    The handles a single-threaded caller holds, next to the process: a
    call adds the handle it returned, a release takes one away and is
    possible only for a handle that is held. *)
Record Client : Type := { proc : singleton.Process; held : list nat }.

Fixpoint remove_one (h : nat) (l : list nat) : list nat :=
  match l with
  | [] => []
  | x :: rest => if Nat.eqb x h then rest else x :: remove_one h rest
  end.

Definition client_step (c : Client) (o : singleton.Op) : option Client :=
  match o with
  | singleton.Get =>
      let (h, p) := singleton.getOrCreate (proc c) in
      Some {| proc := p; held := h :: held c |}
  | singleton.Release h =>
      if existsb (Nat.eqb h) (held c) then
        Some {| proc := singleton.shared_destroy (Some h) (proc c);
                held := remove_one h (held c) |}
      else None
  end.

Fixpoint client_run (c : Client) (ops : list singleton.Op) : option Client :=
  match ops with
  | [] => Some c
  | o :: rest =>
      match client_step c o with
      | Some c' => client_run c' rest
      | None => None
      end
  end.

Definition client_initial : Client :=
  {| proc := singleton.initial; held := [] |}.

(** What holds of a caller between two steps: it holds no handle and no
    instance is alive, or its handles all name the one instance that is
    alive, which has as many owners as there are handles. *)
Definition one_instance (c : Client) : Prop :=
  (held c = [] /\ singleton.heap (proc c) = ∅) \/
  exists (id n : nat),
    held c = repeat id (S n) /\ singleton.heap (proc c) = {[id := S n]} /\
    singleton.guard (proc c) = true /\ singleton._weak (proc c) = Some id.

(** Every instance that is alive was built by a factory call that
    happened. *)
Definition built (p : singleton.Process) : Prop :=
  forall id : nat,
    is_Some (singleton.heap p !! id) -> (id < singleton.constructed p)%nat.

(** The handles the calls of a sequence returned, oldest first. *)
Fixpoint handles_from (p : singleton.Process) (ops : list singleton.Op)
    : list nat :=
  match ops with
  | [] => []
  | o :: rest =>
      match o with
      | singleton.Get => [fst (singleton.getOrCreate p)]
      | singleton.Release _ => []
      end ++ handles_from (singleton.step p o) rest
  end.

Definition handles (ops : list singleton.Op) : list nat :=
  handles_from singleton.initial ops.

(** * Properties of the dispatcher *)

Section dispatch_facts.
Context {W F : Type}.
Variable k : cxxutils.detail.ReturnKind.
Variable move : F -> F * F.
Variable call : F -> Z -> W -> cxxutils.detail.LambdaReturnType k * W.

Local Abbreviation closure := (cxxutils.detail.closure k call).
Local Abbreviation comma_fold := (cxxutils.detail.comma_fold k move call).
Local Abbreviation capture := (cxxutils.detail.capture move).
Local Abbreviation Build := (cxxutils.detail.Build_Locals k).
Local Abbreviation assigned := (cxxutils.detail.assigned k).
Local Abbreviation default_initialized := (cxxutils.detail.default_initialized k).

(** Once [hasValue] is set no closure calls the handler or writes
    [result] again. *)
Lemma comma_fold_matched (value : Z) (Is : list nat) :
  forall (_lambda : F) (r : cxxutils.detail.OurReturnType k) (w : W),
    comma_fold value _lambda Is (Build r true) w = (Build r true, w).
Proof.
  induction Is as [|i rest IH]; intros f r w; simpl.
  - reflexivity.
  - destruct (move f) as [lam residue]. unfold cxxutils.detail.closure. simpl.
    apply IH.
Qed.

Lemma closure_other (value : Z) (lambda : F) (i : nat)
    (loc : cxxutils.detail.Locals k) (w : W) :
  (Z.of_nat i =? value) = false -> closure value lambda i loc w = (loc, w).
Proof.
  intros Hne. unfold cxxutils.detail.closure. rewrite Hne.
  now rewrite andb_false_r.
Qed.

(** The scan of any list of constants: only the first constant equal to
    [value] runs the handler, on the object its closure captured. *)
Lemma comma_fold_first_match (value : Z) (Is : list nat) :
  forall (_lambda : F) (r0 : cxxutils.detail.OurReturnType k) (w : W),
    comma_fold value _lambda Is (Build r0 false) w =
    match first_match value Is with
    | Some i =>
        let (r, w') := call (capture _lambda i) value w in
        (Build (assigned r) true, w')
    | None => (Build r0 false, w)
    end.
Proof.
  induction Is as [|i rest IH]; intros f r0 w; simpl.
  - reflexivity.
  - destruct (move f) as [lam residue] eqn:Hmove.
    destruct (Z.of_nat i =? value) eqn:Hi.
    + apply Z.eqb_eq in Hi. unfold cxxutils.detail.closure. simpl.
      rewrite Hi, Z.eqb_refl. simpl. rewrite Hmove. simpl.
      destruct (call lam value w) as [r w'].
      apply comma_fold_matched.
    + rewrite closure_other by assumption. rewrite IH.
      destruct (first_match value rest) as [j|]; simpl; [|reflexivity].
      rewrite Hmove. reflexivity.
Qed.

Lemma apply_helper_first_match (indeterminate : bool) (value : Z)
    (_lambda : F) (Is : list nat) (w : W) :
  cxxutils.detail.apply_helper k move call indeterminate value _lambda Is w =
  match first_match value Is with
  | Some i =>
      let (r, w') := call (capture _lambda i) value w in (assigned r, w')
  | None => (default_initialized indeterminate, w)
  end.
Proof.
  unfold cxxutils.detail.apply_helper. rewrite comma_fold_first_match.
  destruct (first_match value Is) as [i|]; [|reflexivity].
  now destruct (call (capture _lambda i) value w).
Qed.

End dispatch_facts.

Lemma first_match_seq (value : Z) (len : nat) :
  forall start : nat,
    first_match value (seq start len) =
    if (Z.of_nat start <=? value) && (value <? Z.of_nat (start + len))
    then Some (Z.to_nat value - start)%nat else None.
Proof.
  induction len as [|n IH]; intros start; simpl.
  - destruct (Z.leb_spec (Z.of_nat start) value), (Z.ltb_spec value (Z.of_nat (start + 0)));
      simpl; try reflexivity; lia.
  - destruct (Z.eqb_spec (Z.of_nat start) value) as [Heq|Hne].
    + destruct (Z.leb_spec (Z.of_nat start) value), (Z.ltb_spec value (Z.of_nat (start + S n)));
        simpl; try lia. f_equal. lia.
    + rewrite IH.
      destruct (Z.leb_spec (Z.of_nat (S start)) value), (Z.ltb_spec value (Z.of_nat (S start + n)));
        destruct (Z.leb_spec (Z.of_nat start) value), (Z.ltb_spec value (Z.of_nat (start + S n)));
        simpl; try reflexivity; try lia.
      f_equal. lia.
Qed.

Lemma first_match_domain (value : Z) (Max : nat) :
  first_match value (cxxutils.make_index_sequence Max) =
  if cxxutils.in_domain value Max then Some (Z.to_nat value) else None.
Proof.
  unfold cxxutils.make_index_sequence, cxxutils.in_domain.
  rewrite first_match_seq. simpl. now rewrite Nat.sub_0_r.
Qed.

Lemma in_domain_iff (value : Z) (Max : nat) :
  cxxutils.in_domain value Max = true <-> 0 <= value < Z.of_nat Max.
Proof. unfold cxxutils.in_domain. lia. Qed.

Lemma not_in_domain_iff (value : Z) (Max : nat) :
  cxxutils.in_domain value Max = false <-> ~ (0 <= value < Z.of_nat Max).
Proof. unfold cxxutils.in_domain. lia. Qed.

(** What a call of [constexpr_apply] does, in every mode. *)
Lemma constexpr_apply_unfold {W F : Type} (k : cxxutils.detail.ReturnKind)
    (move : F -> F * F)
    (call : F -> Z -> W -> cxxutils.detail.LambdaReturnType k * W)
    (indeterminate : bool) (value : Z) (Max : nat) (lambda : F) (w : W) :
  cxxutils.constexpr_apply k move call indeterminate value Max lambda w =
  if cxxutils.in_domain value Max then
    let (r, w') :=
      call (cxxutils.detail.capture move lambda (Z.to_nat value)) value w in
    (cxxutils.detail.assigned k r, w')
  else (cxxutils.detail.default_initialized k indeterminate, w).
Proof.
  unfold cxxutils.constexpr_apply.
  rewrite apply_helper_first_match, first_match_domain.
  now destruct (cxxutils.in_domain value Max).
Qed.

Lemma existsb_first_match (value : Z) (Is : list nat) :
  existsb (fun i => Z.of_nat i =? value) Is =
  cxxutils.has_value (first_match value Is).
Proof.
  induction Is as [|i rest IH]; simpl; [reflexivity|].
  destruct (Z.of_nat i =? value); simpl; [reflexivity|].
  rewrite IH. now destruct (first_match value rest).
Qed.

(** ** Worked examples *)

Example dispatch_green :
  cxxutils.constexpr_apply (cxxutils.detail.ReturnsValue Z) cxxutils.copy
    doubled false 1 3 tt tt = (Some 2, tt).
Proof. reflexivity. Qed.

Example dispatch_out_of_domain :
  cxxutils.constexpr_apply (cxxutils.detail.ReturnsValue Z) cxxutils.copy
    doubled false 3 3 tt tt = (None, tt).
Proof. reflexivity. Qed.

Example dispatch_blue_logged :
  cxxutils.constexpr_apply cxxutils.detail.ReturnsVoid cxxutils.copy
    (cxxutils.logged silent) false 2 3 tt (tt, []) = (true, (tt, [2])).
Proof. reflexivity. Qed.

(** The closure of every constant moves from the same [_lambda]: the
    closure of the constant 0 owns the handler as it was passed, the
    later ones own what the moves before them left. *)
Example dispatch_moved_from :
  cxxutils.constexpr_apply (cxxutils.detail.ReturnsValue Z) move_out
    owned_size false 0 3 (Some 1) tt = (Some 1, tt) /\
  cxxutils.constexpr_apply (cxxutils.detail.ReturnsValue Z) move_out
    owned_size false 1 3 (Some 1) tt = (Some 0, tt).
Proof. split; reflexivity. Qed.

(** ** The claims *)

(** C1, as the code has it.  For a runtime value outside [[0, Max)] the
    handler is never called, so the state its side effects act on is
    left as it was.  In value mode the result is the empty optional.  In
    signal mode the result is not [false]: it is the content of the
    [bool] that line 34 leaves uninitialised. *)
Theorem constexpr_apply_outside_domain {W F : Type} (move : F -> F * F)
    (indeterminate : bool) (value : Z) (Max : nat) (lambda : F) (w : W) :
  ~ (0 <= value < Z.of_nat Max) ->
  (forall call,
     cxxutils.constexpr_apply cxxutils.detail.ReturnsVoid move call
       indeterminate value Max lambda w = (indeterminate, w)) /\
  (forall T call,
     cxxutils.constexpr_apply (cxxutils.detail.ReturnsValue T) move call
       indeterminate value Max lambda w = (None, w)) /\
  (forall T call,
     cxxutils.constexpr_apply (cxxutils.detail.ReturnsOptional T) move call
       indeterminate value Max lambda w = (None, w)).
Proof.
  intros Hout. apply not_in_domain_iff in Hout.
  repeat split; intros; rewrite constexpr_apply_unfold, Hout; reflexivity.
Qed.

(** The call of C1 that goes wrong: three constants, the value 3, a
    handler that counts its calls, and storage that holds [true]. *)
Lemma constexpr_apply_outside_domain_witness :
  ~ (0 <= 3 < Z.of_nat 3) /\
  cxxutils.constexpr_apply cxxutils.detail.ReturnsVoid cxxutils.copy counting
    true 3 3 tt 0%nat = (true, 0%nat).
Proof.
  split.
  - simpl. lia.
  - apply (constexpr_apply_outside_domain cxxutils.copy true 3 3 tt 0%nat).
    simpl. lia.
Defined.

(** Where the dispatch of a value of the domain gives what the handler
    passed would return: a handler that returns [void] gives [true], and
    a handler whose every object, the moved-from ones too, returns [c0]
    gives an optional that holds [c0]. *)
Theorem constexpr_apply_inside_domain {W F T : Type} (move : F -> F * F)
    (signal : F -> Z -> W -> unit * W) (constant : F -> Z -> W -> T * W)
    (c0 : T) (indeterminate : bool) (value : Z) (Max : nat) (lambda : F)
    (w : W) :
  0 <= value < Z.of_nat Max ->
  (forall f c w0, fst (constant f c w0) = c0) ->
  fst (cxxutils.constexpr_apply cxxutils.detail.ReturnsVoid move signal
         indeterminate value Max lambda w) = true /\
  fst (cxxutils.constexpr_apply (cxxutils.detail.ReturnsValue T) move constant
         indeterminate value Max lambda w) = Some c0.
Proof.
  intros Hin Hconst. apply in_domain_iff in Hin.
  rewrite !constexpr_apply_unfold, Hin. split.
  - now destruct (signal _ value w).
  - specialize (Hconst (cxxutils.detail.capture move lambda (Z.to_nat value)) value w).
    destruct (constant _ value w) as [r w']. simpl in *. now subst.
Qed.

Lemma constexpr_apply_inside_domain_witness :
  0 <= 2 < Z.of_nat 3 /\
  (forall f c w0, fst (seven f c w0) = 7) /\
  fst (cxxutils.constexpr_apply cxxutils.detail.ReturnsVoid cxxutils.copy silent
         false 2 3 tt tt) = true /\
  fst (cxxutils.constexpr_apply (cxxutils.detail.ReturnsValue Z) cxxutils.copy seven
         false 2 3 tt tt) = Some 7.
Proof.
  split; [simpl; lia|]. split; [reflexivity|].
  apply (constexpr_apply_inside_domain cxxutils.copy silent seven 7 false 2 3 tt tt).
  - simpl. lia.
  - reflexivity.
Defined.

(** C2, as the code has it.  The handler passed owns what it captured
    and returns 1 for every constant.  Line 36 moves it into the closure
    of the constant 0 and builds the closure of every later constant
    from what that move left: the call for the value 1 of the domain
    runs the moved-from object and returns an optional that holds 0,
    not 1. *)
Lemma constexpr_apply_constant_handler_moved :
  (forall (c : Z) (w0 : unit), fst (owned_size (Some 1) c w0) = 1) /\
  0 <= 1 < Z.of_nat 3 /\
  fst (cxxutils.constexpr_apply (cxxutils.detail.ReturnsValue Z) move_out
         owned_size false 0 3 (Some 1) tt) = Some 1 /\
  fst (cxxutils.constexpr_apply (cxxutils.detail.ReturnsValue Z) move_out
         owned_size false 1 3 (Some 1) tt) = Some 0.
Proof.
  split; [reflexivity|]. split; [simpl; lia|]. split; reflexivity.
Qed.

(** C3.  A call runs the handler once when the runtime value lies in
    [[0, Max)], for the constant equal to it and on the object the
    closure of that constant captured, and not at all otherwise: the log
    of a logged handler ends as [[value]] or empty, and the result is
    what that one call stored.  The same holds for the scan of any list
    of constants, repeated ones too: the first constant equal to the
    value sets [hasValue], and no later one calls the handler. *)
Theorem constexpr_apply_single_invocation {W F : Type}
    (k : cxxutils.detail.ReturnKind) (move : F -> F * F)
    (call : F -> Z -> W -> cxxutils.detail.LambdaReturnType k * W)
    (indeterminate : bool) (value : Z) (lambda : F) (w : W) :
  (forall Max : nat,
     cxxutils.constexpr_apply k move (cxxutils.logged call) indeterminate
       value Max lambda (w, []) =
     if cxxutils.in_domain value Max then
       let (r, w') :=
         call (cxxutils.detail.capture move lambda (Z.to_nat value)) value w in
       (cxxutils.detail.assigned k r, (w', [value]))
     else (cxxutils.detail.default_initialized k indeterminate, (w, []))) /\
  (forall Is : list nat,
     snd (snd (cxxutils.detail.apply_helper k move (cxxutils.logged call)
                 indeterminate value lambda Is (w, []))) =
     if existsb (fun i => Z.of_nat i =? value) Is then [value] else []).
Proof.
  split.
  - intros Max. rewrite constexpr_apply_unfold.
    destruct (cxxutils.in_domain value Max); [|reflexivity].
    unfold cxxutils.logged. simpl.
    now destruct (call _ value w).
  - intros Is. rewrite apply_helper_first_match, existsb_first_match.
    destruct (first_match value Is) as [i|]; simpl; [|reflexivity].
    unfold cxxutils.logged. simpl.
    now destruct (call _ value w).
Qed.

(** C4, as the code has it.  With the bound 0 the scan is empty and the
    handler is never called.  In value mode the result is the empty
    optional.  In signal mode the result is not [false]: it is the
    content of the [bool] that line 34 leaves uninitialised. *)
Theorem constexpr_apply_empty_domain {W F : Type} (move : F -> F * F)
    (indeterminate : bool) (value : Z) (lambda : F) (w : W) :
  (forall call,
     cxxutils.constexpr_apply cxxutils.detail.ReturnsVoid move call
       indeterminate value 0 lambda w = (indeterminate, w)) /\
  (forall T call,
     cxxutils.constexpr_apply (cxxutils.detail.ReturnsValue T) move call
       indeterminate value 0 lambda w = (None, w)) /\
  (forall T call,
     cxxutils.constexpr_apply (cxxutils.detail.ReturnsOptional T) move call
       indeterminate value 0 lambda w = (None, w)).
Proof. repeat split. Qed.

Example constexpr_apply_empty_domain_true :
  fst (cxxutils.constexpr_apply cxxutils.detail.ReturnsVoid cxxutils.copy
         counting true 0 0 tt 0%nat) = true.
Proof. reflexivity. Qed.

(** C5 fails.  The handler [declining] returns an empty optional.  The
    call for the value 1 runs it (the counter moves to 1), the call for
    the value 3 runs nothing, and both return the same empty optional:
    the presence flag does not tell them apart. *)
Lemma declined_dispatch_not_distinguishable :
  cxxutils.constexpr_apply (cxxutils.detail.ReturnsOptional Z) cxxutils.copy
    declining false 1 3 tt 0%nat = (None, 1%nat) /\
  cxxutils.constexpr_apply (cxxutils.detail.ReturnsOptional Z) cxxutils.copy
    declining false 3 3 tt 0%nat = (None, 0%nat) /\
  ~ presence_tells_dispatch cxxutils.copy declining 3 tt 0%nat.
Proof.
  split; [reflexivity|]. split; [reflexivity|].
  intros Hclaim.
  apply (Hclaim false 1 3); reflexivity.
Qed.

(** C5, amended.  When the handler returns an optional, the result of a
    call that dispatches is the optional the handler returned and the
    result of a call that does not dispatch is the empty optional.  The
    presence flag of the result is set exactly when the call dispatched
    and the handler returned a value. *)
Theorem constexpr_apply_optional_result {W F T : Type} (move : F -> F * F)
    (call : F -> Z -> W -> option T * W) (indeterminate : bool) (value : Z)
    (Max : nat) (lambda : F) (w : W) :
  let returned :=
    fst (call (cxxutils.detail.capture move lambda (Z.to_nat value)) value w) in
  let res :=
    fst (cxxutils.constexpr_apply (cxxutils.detail.ReturnsOptional T) move call
           indeterminate value Max lambda w) in
  res = (if cxxutils.in_domain value Max then returned else None) /\
  cxxutils.has_value res =
    cxxutils.in_domain value Max && cxxutils.has_value returned.
Proof.
  simpl. rewrite constexpr_apply_unfold.
  destruct (cxxutils.in_domain value Max); simpl; [|split; reflexivity].
  destruct (call _ value w) as [r w']. split; reflexivity.
Qed.

(** Where the dispatcher is a function of its three inputs: with a pure
    handler no call changes the state, and the result depends neither
    on the state nor on the storage of [result], in value mode always
    and in signal mode when the value lies in the domain. *)
Lemma constexpr_apply_pure {W F : Type} (k : cxxutils.detail.ReturnKind)
    (move : F -> F * F)
    (call : F -> Z -> W -> cxxutils.detail.LambdaReturnType k * W)
    (value : Z) (Max : nat) (lambda : F) :
  pure_handler call ->
  cxxutils.detail.hasVoidReturnType k = false \/ 0 <= value < Z.of_nat Max ->
  forall (i1 i2 : bool) (w1 w2 : W),
    snd (cxxutils.constexpr_apply k move call i1 value Max lambda w1) = w1 /\
    fst (cxxutils.constexpr_apply k move call i1 value Max lambda w1) =
    fst (cxxutils.constexpr_apply k move call i2 value Max lambda w2).
Proof.
  intros Hpure Hmode i1 i2 w1 w2. rewrite !constexpr_apply_unfold.
  destruct (cxxutils.in_domain value Max) eqn:Hdom.
  - set (f := cxxutils.detail.capture move lambda (Z.to_nat value)).
    destruct (Hpure f value w1 w2) as [Hs Hr].
    destruct (call f value w1) as [r1 w1'], (call f value w2) as [r2 w2'].
    simpl in *. now subst.
  - split; [reflexivity|]. simpl.
    destruct Hmode as [Hk|Hin].
    + destruct k; simpl in *; [discriminate|reflexivity|reflexivity].
    + apply in_domain_iff in Hin. congruence.
Qed.

(** C6, as the code has it.  Two calls in signal mode with the same
    value 3, the same bound 3 and the same handler without side effects
    return [true] and [false]: the result is the content of the [bool]
    that line 34 leaves uninitialised, not a function of the three
    inputs. *)
Lemma constexpr_apply_void_unmatched_storage :
  fst (cxxutils.constexpr_apply cxxutils.detail.ReturnsVoid cxxutils.copy
         silent true 3 3 tt tt) = true /\
  fst (cxxutils.constexpr_apply cxxutils.detail.ReturnsVoid cxxutils.copy
         silent false 3 3 tt tt) = false.
Proof. split; reflexivity. Qed.

(** * Properties of the numeric helpers *)

Lemma std_min_Z (a b : Z) : cxxutils.std_min Z.ltb a b = Z.min a b.
Proof. unfold cxxutils.std_min. destruct (Z.ltb_spec b a); lia. Qed.

Lemma std_max_Z (a b : Z) : cxxutils.std_max Z.ltb a b = Z.max a b.
Proof. unfold cxxutils.std_max. destruct (Z.ltb_spec a b); lia. Qed.

(** C7.  [clamp(value, range)] is [min(max(value, range.min), range.max)]
    for every value and every range; it is defined on all of them. *)
Theorem clamp_min_max (value : Z) (range : Range.t Z) :
  cxxutils.clamp Z.ltb value range =
  Z.min (Z.max value (Range.min range)) (Range.max range).
Proof. unfold cxxutils.clamp. now rewrite std_max_Z, std_min_Z. Qed.

Lemma min_in (arg0 : Z) (args : list Z) :
  In (cxxutils.min Z.ltb arg0 args) (arg0 :: args).
Proof.
  revert arg0. induction args as [|arg1 rest IH]; intros arg0.
  - now left.
  - cbn [cxxutils.min]. rewrite std_min_Z.
    destruct (Z.min_spec arg0 (cxxutils.min Z.ltb arg1 rest)) as [[_ ->]|[_ ->]].
    + now left.
    + right. apply IH.
Qed.

Lemma max_in (arg0 : Z) (args : list Z) :
  In (cxxutils.max Z.ltb arg0 args) (arg0 :: args).
Proof.
  revert arg0. induction args as [|arg1 rest IH]; intros arg0.
  - now left.
  - cbn [cxxutils.max]. rewrite std_max_Z.
    destruct (Z.max_spec arg0 (cxxutils.max Z.ltb arg1 rest)) as [[_ ->]|[_ ->]].
    + right. apply IH.
    + now left.
Qed.

Lemma min_le (arg0 : Z) (args : list Z) :
  Forall (fun x => cxxutils.min Z.ltb arg0 args <= x) (arg0 :: args).
Proof.
  revert arg0. induction args as [|arg1 rest IH]; intros arg0.
  - constructor; [simpl; lia | constructor].
  - cbn [cxxutils.min]. rewrite std_min_Z. constructor; [lia|].
    eapply List.Forall_impl; [|apply IH]. simpl. intros x Hx. lia.
Qed.

Lemma max_ge (arg0 : Z) (args : list Z) :
  Forall (fun x => x <= cxxutils.max Z.ltb arg0 args) (arg0 :: args).
Proof.
  revert arg0. induction args as [|arg1 rest IH]; intros arg0.
  - constructor; [simpl; lia | constructor].
  - cbn [cxxutils.max]. rewrite std_max_Z. constructor; [lia|].
    eapply List.Forall_impl; [|apply IH]. simpl. intros x Hx. lia.
Qed.

(** C8.  For the arguments [arg0, args...] the variadic [min] returns
    one of them that is below all of them, the variadic [max] one of
    them that is above all of them, and [range] the pair of the two: the
    interval holds every argument, and its ends are arguments, so no
    interval that holds them all is tighter. *)
Theorem min_max_range (arg0 : Z) (args : list Z) :
  let m := cxxutils.min Z.ltb arg0 args in
  let M := cxxutils.max Z.ltb arg0 args in
  In m (arg0 :: args) /\ Forall (fun x => m <= x) (arg0 :: args) /\
  In M (arg0 :: args) /\ Forall (fun x => x <= M) (arg0 :: args) /\
  cxxutils.range Z.ltb arg0 args = Range.mk m M /\
  (forall lo hi : Z,
     Forall (fun x => lo <= x <= hi) (arg0 :: args) -> lo <= m /\ M <= hi).
Proof.
  simpl. split; [apply min_in|]. split; [apply min_le|].
  split; [apply max_in|]. split; [apply max_ge|]. split; [reflexivity|].
  intros lo hi Hall. rewrite List.Forall_forall in Hall. split.
  - apply (Hall _ (min_in arg0 args)).
  - apply (Hall _ (max_in arg0 args)).
Qed.

Example range_example :
  cxxutils.range Z.ltb 4 [-2; 9; 0] = Range.mk (-2) 9.
Proof. reflexivity. Qed.

(** C10.  For a range whose bounds are inverted [clamp] returns
    [range.max] whatever the value, and for every range and every value
    the result does not exceed [range.max]. *)
Theorem clamp_inverted_range (value : Z) (range : Range.t Z) :
  Range.min range > Range.max range ->
  cxxutils.clamp Z.ltb value range = Range.max range /\
  (forall (v : Z) (r : Range.t Z), cxxutils.clamp Z.ltb v r <= Range.max r).
Proof.
  intros Hinv. unfold cxxutils.clamp. split.
  - rewrite std_max_Z, std_min_Z. lia.
  - intros v r. rewrite std_min_Z. lia.
Qed.

Lemma clamp_inverted_range_witness :
  Range.min (Range.mk 10 0) > Range.max (Range.mk 10 0) /\
  cxxutils.clamp Z.ltb 5 (Range.mk 10 0) = Range.max (Range.mk 10 0) /\
  (forall (v : Z) (r : Range.t Z), cxxutils.clamp Z.ltb v r <= Range.max r).
Proof.
  split; [simpl; lia|].
  apply (clamp_inverted_range 5 (Range.mk 10 0)). simpl. lia.
Defined.

(** ** Any element type

    The same facts for every [T] whose [operator<] is a strict weak
    order, which is what [std::min] and [std::max] ask of it. *)

Section strict_weak_order.
Context {T : Type}.
Variable lt : T -> T -> bool.
Hypothesis lt_irrefl : forall a, lt a a = false.
Hypothesis lt_trans :
  forall a b c, lt a b = true -> lt b c = true -> lt a c = true.
Hypothesis lt_cotrans :
  forall a b c, lt a b = true -> lt a c = true \/ lt c b = true.

Lemma lt_asym (a b : T) : lt a b = true -> lt b a = false.
Proof.
  intros Hab. destruct (lt b a) eqn:Hba; [|reflexivity].
  rewrite <- (lt_irrefl a). symmetry. now apply lt_trans with b.
Qed.

Lemma not_lt_trans (a b c : T) :
  lt a b = false -> lt b c = false -> lt a c = false.
Proof.
  intros Hab Hbc. destruct (lt a c) eqn:Hac; [|reflexivity].
  destruct (lt_cotrans a c b Hac) as [H|H]; congruence.
Qed.

Lemma clamp_inverted_any (value : T) (range : Range.t T) :
  lt (Range.max range) (Range.min range) = true ->
  cxxutils.clamp lt value range = Range.max range.
Proof.
  intros Hinv. unfold cxxutils.clamp, cxxutils.std_max, cxxutils.std_min.
  destruct (lt value (Range.min range)) eqn:Hv.
  - now rewrite Hinv.
  - destruct (lt_cotrans _ _ value Hinv) as [H|H]; [now rewrite H|congruence].
Qed.

Lemma clamp_upper_any (value : T) (range : Range.t T) :
  lt (Range.max range) (cxxutils.clamp lt value range) = false.
Proof.
  unfold cxxutils.clamp, cxxutils.std_min.
  destruct (lt (Range.max range)
              (cxxutils.std_max lt value (Range.min range))) eqn:H;
    [apply lt_irrefl|assumption].
Qed.

Lemma min_in_any (arg0 : T) (args : list T) :
  In (cxxutils.min lt arg0 args) (arg0 :: args).
Proof.
  revert arg0. induction args as [|arg1 rest IH]; intros arg0.
  - now left.
  - cbn [cxxutils.min]. unfold cxxutils.std_min.
    destruct (lt _ arg0); [right; apply IH|now left].
Qed.

Lemma min_lower_any (arg0 : T) (args : list T) :
  Forall (fun x => lt x (cxxutils.min lt arg0 args) = false) (arg0 :: args).
Proof.
  revert arg0. induction args as [|arg1 rest IH]; intros arg0.
  - constructor; [apply lt_irrefl|constructor].
  - cbn [cxxutils.min]. unfold cxxutils.std_min.
    destruct (lt (cxxutils.min lt arg1 rest) arg0) eqn:Hm.
    + constructor; [now apply lt_asym|apply IH].
    + constructor; [apply lt_irrefl|].
      eapply List.Forall_impl; [|apply IH]. simpl. intros x Hx.
      now apply not_lt_trans with (cxxutils.min lt arg1 rest).
Qed.

Lemma max_in_any (arg0 : T) (args : list T) :
  In (cxxutils.max lt arg0 args) (arg0 :: args).
Proof.
  revert arg0. induction args as [|arg1 rest IH]; intros arg0.
  - now left.
  - cbn [cxxutils.max]. unfold cxxutils.std_max.
    destruct (lt arg0 _); [right; apply IH|now left].
Qed.

Lemma max_upper_any (arg0 : T) (args : list T) :
  Forall (fun x => lt (cxxutils.max lt arg0 args) x = false) (arg0 :: args).
Proof.
  revert arg0. induction args as [|arg1 rest IH]; intros arg0.
  - constructor; [apply lt_irrefl|constructor].
  - cbn [cxxutils.max]. unfold cxxutils.std_max.
    destruct (lt arg0 (cxxutils.max lt arg1 rest)) eqn:Hm.
    + constructor; [now apply lt_asym|apply IH].
    + constructor; [apply lt_irrefl|].
      eapply List.Forall_impl; [|apply IH]. simpl. intros x Hx.
      now apply not_lt_trans with (cxxutils.max lt arg1 rest).
Qed.

End strict_weak_order.

(** * Properties of the singleton *)

Example singleton_trace :
  let p := singleton.run
    [singleton.Get; singleton.Get; singleton.Release 0%nat;
     singleton.Release 0%nat; singleton.Get] in
  singleton.constructed p = 2%nat /\ singleton.heap p !! 1%nat = Some 1%nat /\
  singleton.heap p !! 0%nat = None.
Proof. vm_compute. repeat split. Qed.

(** With no object alive a call builds one: one factory call, one owner. *)
Lemma getOrCreate_none_alive (p : singleton.Process) :
  singleton.heap p = ∅ ->
  singleton.getOrCreate p =
  (singleton.constructed p,
   {| singleton.heap := {[singleton.constructed p := 1%nat]};
      singleton.constructed := S (singleton.constructed p);
      singleton.guard := true;
      singleton._weak := Some (singleton.constructed p) |}).
Proof.
  destruct p as [h c g wk]. simpl. intros ->.
  unfold singleton.getOrCreate, singleton.static_init. simpl.
  destruct g; simpl.
  - assert (Hlock : singleton.weak_lock
              {| singleton.heap := ∅; singleton.constructed := c;
                 singleton.guard := true; singleton._weak := wk |} =
            (None, {| singleton.heap := ∅; singleton.constructed := c;
                      singleton.guard := true; singleton._weak := wk |})).
    { unfold singleton.weak_lock. simpl. destruct wk as [id|]; [|reflexivity].
      now rewrite lookup_empty. }
    rewrite Hlock. simpl. unfold singleton.assign_weak. simpl.
    now rewrite insert_empty.
  - unfold singleton.weak_lock. simpl.
    rewrite insert_empty, lookup_singleton_eq. simpl.
    rewrite insert_singleton_eq, lookup_singleton_eq.
    unfold singleton.with_heap. simpl. now rewrite insert_singleton_eq.
Qed.

(** With the observed object alive a call returns one more owner of it
    and calls no factory. *)
Lemma getOrCreate_alive (p : singleton.Process) (id n : nat) :
  singleton.heap p = {[id := S n]} ->
  singleton.guard p = true ->
  singleton._weak p = Some id ->
  singleton.getOrCreate p =
  (id, singleton.with_heap {[id := S (S n)]} p).
Proof.
  destruct p as [h c g wk]. simpl. intros -> -> ->.
  unfold singleton.getOrCreate, singleton.static_init, singleton.weak_lock.
  simpl. rewrite lookup_singleton_eq. simpl.
  now rewrite insert_singleton_eq.
Qed.

Lemma release_at_most_one (p : singleton.Process) (h : nat) :
  singleton.at_most_one p ->
  singleton.at_most_one (singleton.shared_destroy (Some h) p).
Proof.
  intros [Hempty | (id & n & Hheap & Hguard & Hweak)];
    unfold singleton.shared_destroy.
  - rewrite Hempty, lookup_empty. now left.
  - rewrite Hheap. destruct (decide (h = id)) as [->|Hne].
    + rewrite lookup_singleton_eq. destruct n as [|m].
      * left. simpl. apply delete_singleton_eq.
      * right. exists id, m. simpl. now rewrite insert_singleton_eq.
    + rewrite lookup_singleton_ne by congruence.
      right. now exists id, n.
Qed.

Lemma step_at_most_one (p : singleton.Process) (o : singleton.Op) :
  singleton.at_most_one p -> singleton.at_most_one (singleton.step p o).
Proof.
  intros Hinv. destruct o as [|h]; simpl.
  - destruct Hinv as [Hempty | (id & n & Hheap & Hguard & Hweak)].
    + rewrite getOrCreate_none_alive by assumption. simpl.
      right. now exists (singleton.constructed p), 0%nat.
    + rewrite (getOrCreate_alive p id n) by assumption. simpl.
      right. now exists id, (S n).
  - now apply release_at_most_one.
Qed.

Lemma run_at_most_one (ops : list singleton.Op) :
  singleton.at_most_one (singleton.run ops).
Proof.
  unfold singleton.run.
  assert (Hgen : forall p, singleton.at_most_one p ->
                   singleton.at_most_one (fold_left singleton.step ops p)).
  { induction ops as [|o rest IH]; intros p Hp; simpl; [assumption|].
    apply IH. now apply step_at_most_one. }
  apply Hgen. now left.
Qed.

(** C9.  After any single-threaded sequence of calls and releases,
    [getOrCreate] either finds no instance alive, calls the factory once
    and returns the one owner of the new instance, or finds the instance
    alive, calls no factory and returns one more owner of that same
    instance. *)
Theorem getOrCreate_shares_live_instance (ops : list singleton.Op) :
  let p := singleton.run ops in
  let handle := fst (singleton.getOrCreate p) in
  let p' := snd (singleton.getOrCreate p) in
  (singleton.heap p = ∅ /\
   singleton.constructed p' = S (singleton.constructed p) /\
   singleton.heap p' = {[handle := 1%nat]}) \/
  (exists n : nat,
     singleton.heap p = {[handle := S n]} /\
     singleton.constructed p' = singleton.constructed p /\
     singleton.heap p' = {[handle := S (S n)]}).
Proof.
  simpl.
  destruct (run_at_most_one ops) as [Hempty | (id & n & Hheap & Hguard & Hweak)].
  - left. rewrite getOrCreate_none_alive by assumption. simpl. now split.
  - right. exists n. rewrite (getOrCreate_alive _ id n) by assumption.
    simpl. now split.
Qed.

(** * Further properties of the dispatcher *)

Lemma capture_copy {F : Type} (f : F) (i : nat) :
  cxxutils.detail.capture cxxutils.copy f i = f.
Proof. induction i as [|j IH]; simpl; [reflexivity|exact IH]. Qed.

Lemma capture_emptied {F : Type} (move : F -> F * F) (f f0 e : F) (i : nat) :
  move f = (f0, e) -> move e = (e, e) ->
  cxxutils.detail.capture move f i = match i with O => f0 | S _ => e end.
Proof.
  intros Hf He. destruct i as [|j]; simpl; rewrite Hf; simpl; [reflexivity|].
  induction j as [|j' IH]; simpl; rewrite He; simpl; [reflexivity|exact IH].
Qed.

(** X1.  With a handler that returns a plain value the result holds a
    value exactly when the runtime value lies in [[0, Max)]. *)
Theorem constexpr_apply_value_presence {W F T : Type} (move : F -> F * F)
    (call : F -> Z -> W -> T * W) (indeterminate : bool) (value : Z)
    (Max : nat) (lambda : F) (w : W) :
  cxxutils.has_value
    (fst (cxxutils.constexpr_apply (cxxutils.detail.ReturnsValue T) move call
            indeterminate value Max lambda w)) =
  cxxutils.in_domain value Max.
Proof.
  rewrite constexpr_apply_unfold.
  destruct (cxxutils.in_domain value Max); [|reflexivity].
  now destruct (call _ value w).
Qed.

(** X2.  A handler that is copied when it is moved: a call is one call
    of that handler for the constant equal to the value, its result
    stored as the mode says, when the value lies in the domain; otherwise
    nothing runs. *)
Theorem constexpr_apply_copy {W F : Type} (k : cxxutils.detail.ReturnKind)
    (call : F -> Z -> W -> cxxutils.detail.LambdaReturnType k * W)
    (indeterminate : bool) (value : Z) (Max : nat) (lambda : F) (w : W) :
  cxxutils.constexpr_apply k cxxutils.copy call indeterminate value Max
    lambda w =
  if cxxutils.in_domain value Max then
    let (r, w') := call lambda value w in (cxxutils.detail.assigned k r, w')
  else (cxxutils.detail.default_initialized k indeterminate, w).
Proof. rewrite constexpr_apply_unfold. now rewrite capture_copy. Qed.

(** X3.  A handler that a move empties: only the closure of the constant
    0 owns the handler as it was passed; a call for any other value of
    the domain runs the emptied object [e]. *)
Theorem constexpr_apply_moved_from {W F : Type}
    (k : cxxutils.detail.ReturnKind) (move : F -> F * F)
    (call : F -> Z -> W -> cxxutils.detail.LambdaReturnType k * W)
    (f0 e : F) (indeterminate : bool) (value : Z) (Max : nat) (lambda : F)
    (w : W) :
  move lambda = (f0, e) -> move e = (e, e) ->
  0 <= value < Z.of_nat Max ->
  cxxutils.constexpr_apply k move call indeterminate value Max lambda w =
  let (r, w') := call (if value =? 0 then f0 else e) value w in
  (cxxutils.detail.assigned k r, w').
Proof.
  intros Hf He Hin. rewrite constexpr_apply_unfold.
  apply in_domain_iff in Hin as Hdom. rewrite Hdom.
  rewrite (capture_emptied move lambda f0 e _ Hf He).
  destruct (Z.eqb_spec value 0) as [->|Hne]; [reflexivity|].
  destruct (Z.to_nat value) eqn:Hn; [lia|reflexivity].
Qed.

Lemma constexpr_apply_moved_from_witness :
  move_out (Some 1) = (Some 1, None) /\ move_out None = (None, None) /\
  0 <= 2 < Z.of_nat 3 /\
  cxxutils.constexpr_apply (cxxutils.detail.ReturnsValue Z) move_out
    owned_size false 2 3 (Some 1) tt =
  let (r, w') := owned_size (if 2 =? 0 then Some 1 else None) 2 tt in
  (cxxutils.detail.assigned (cxxutils.detail.ReturnsValue Z) r, w').
Proof.
  split; [reflexivity|]. split; [reflexivity|]. split; [simpl; lia|].
  apply (constexpr_apply_moved_from (cxxutils.detail.ReturnsValue Z) move_out
           owned_size (Some 1) None false 2 3 (Some 1) tt).
  - reflexivity.
  - reflexivity.
  - simpl. lia.
Defined.

(** X4.  A call that dispatches does not depend on the bound: any larger
    bound gives the same result and the same state. *)
Theorem constexpr_apply_larger_bound {W F : Type}
    (k : cxxutils.detail.ReturnKind) (move : F -> F * F)
    (call : F -> Z -> W -> cxxutils.detail.LambdaReturnType k * W)
    (indeterminate : bool) (value : Z) (Max Max' : nat) (lambda : F) (w : W) :
  0 <= value < Z.of_nat Max -> (Max <= Max')%nat ->
  cxxutils.constexpr_apply k move call indeterminate value Max' lambda w =
  cxxutils.constexpr_apply k move call indeterminate value Max lambda w.
Proof.
  intros Hin Hle. rewrite !constexpr_apply_unfold.
  assert (Hin' : 0 <= value < Z.of_nat Max') by lia.
  apply in_domain_iff in Hin. apply in_domain_iff in Hin'.
  now rewrite Hin, Hin'.
Qed.

Lemma constexpr_apply_larger_bound_witness :
  0 <= 1 < Z.of_nat 2 /\ (2 <= 5)%nat /\
  cxxutils.constexpr_apply (cxxutils.detail.ReturnsValue Z) cxxutils.copy
    doubled false 1 5 tt tt =
  cxxutils.constexpr_apply (cxxutils.detail.ReturnsValue Z) cxxutils.copy
    doubled false 1 2 tt tt.
Proof.
  split; [simpl; lia|]. split; [lia|].
  apply (constexpr_apply_larger_bound (cxxutils.detail.ReturnsValue Z)
           cxxutils.copy doubled false 1 2 5 tt tt); [simpl; lia|lia].
Defined.

(** * Further properties of the numeric helpers *)

Lemma clamp_Z (value : Z) (range : Range.t Z) :
  cxxutils.clamp Z.ltb value range =
  Z.min (Z.max value (Range.min range)) (Range.max range).
Proof. unfold cxxutils.clamp. now rewrite std_max_Z, std_min_Z. Qed.

(** X5.  For a range whose bounds are in order, [clamp] returns
    [range.min] below the range, [range.max] above it and the value
    itself inside. *)
Theorem clamp_piecewise (value : Z) (range : Range.t Z) :
  Range.min range <= Range.max range ->
  cxxutils.clamp Z.ltb value range =
  if value <? Range.min range then Range.min range
  else if Range.max range <? value then Range.max range
  else value.
Proof.
  intros Hord. rewrite clamp_Z.
  destruct (Z.ltb_spec value (Range.min range));
    destruct (Z.ltb_spec (Range.max range) value); lia.
Qed.

Lemma clamp_piecewise_witness :
  Range.min (Range.mk (-1) 4) <= Range.max (Range.mk (-1) 4) /\
  cxxutils.clamp Z.ltb 9 (Range.mk (-1) 4) =
  if 9 <? Range.min (Range.mk (-1) 4) then Range.min (Range.mk (-1) 4)
  else if Range.max (Range.mk (-1) 4) <? 9 then Range.max (Range.mk (-1) 4)
  else 9.
Proof.
  split; [simpl; lia|].
  apply (clamp_piecewise 9 (Range.mk (-1) 4)). simpl. lia.
Defined.

(** X6.  For a range whose bounds are in order, no point of the range
    is closer to the value than what [clamp] returns. *)
Theorem clamp_nearest (value x : Z) (range : Range.t Z) :
  Range.min range <= Range.max range ->
  Range.min range <= x <= Range.max range ->
  Z.abs (cxxutils.clamp Z.ltb value range - value) <= Z.abs (x - value).
Proof. intros Hord Hx. rewrite clamp_Z. lia. Qed.

Lemma clamp_nearest_witness :
  Range.min (Range.mk 2 6) <= Range.max (Range.mk 2 6) /\
  Range.min (Range.mk 2 6) <= 3 <= Range.max (Range.mk 2 6) /\
  Z.abs (cxxutils.clamp Z.ltb 10 (Range.mk 2 6) - 10) <= Z.abs (3 - 10).
Proof.
  split; [simpl; lia|]. split; [simpl; lia|].
  apply (clamp_nearest 10 3 (Range.mk 2 6)); simpl; lia.
Defined.

(** X7.  For every range, inverted ones too, clamping twice is clamping
    once, and [clamp] keeps the order of the values. *)
Theorem clamp_idempotent_monotone (value : Z) (range : Range.t Z) :
  cxxutils.clamp Z.ltb (cxxutils.clamp Z.ltb value range) range =
  cxxutils.clamp Z.ltb value range /\
  (forall value' : Z,
     value <= value' ->
     cxxutils.clamp Z.ltb value range <= cxxutils.clamp Z.ltb value' range).
Proof.
  split.
  - rewrite !clamp_Z. lia.
  - intros value' Hle. rewrite !clamp_Z. lia.
Qed.

(** X8.  [range |= value] widens the range just enough to hold the
    value: the value lies between the new bounds, the new bounds enclose
    the old ones, and a bound moves only to the value itself.  Clamping
    the value to the widened range gives the value back. *)
Theorem or_assign_holds_value (range : Range.t Z) (value : Z) :
  let widened := cxxutils.or_assign Z.ltb range value in
  Range.min widened <= value <= Range.max widened /\
  Range.min widened <= Range.min range /\
  Range.max range <= Range.max widened /\
  (Range.min widened = Range.min range \/ Range.min widened = value) /\
  (Range.max widened = Range.max range \/ Range.max widened = value) /\
  cxxutils.clamp Z.ltb value widened = value.
Proof.
  simpl. rewrite clamp_Z. unfold cxxutils.or_assign. simpl.
  rewrite std_min_Z, std_max_Z. lia.
Qed.

Lemma fold_left_min_assoc (l : list Z) :
  forall a b : Z, fold_left Z.min l (Z.min a b) = Z.min a (fold_left Z.min l b).
Proof.
  induction l as [|c rest IH]; intros a b; simpl; [reflexivity|].
  now rewrite <- Z.min_assoc, IH.
Qed.

Lemma fold_left_max_assoc (l : list Z) :
  forall a b : Z, fold_left Z.max l (Z.max a b) = Z.max a (fold_left Z.max l b).
Proof.
  induction l as [|c rest IH]; intros a b; simpl; [reflexivity|].
  now rewrite <- Z.max_assoc, IH.
Qed.

Lemma min_fold_left (args : list Z) :
  forall arg0 : Z, cxxutils.min Z.ltb arg0 args = fold_left Z.min args arg0.
Proof.
  induction args as [|arg1 rest IH]; intros arg0; [reflexivity|].
  cbn [cxxutils.min fold_left].
  now rewrite std_min_Z, IH, fold_left_min_assoc.
Qed.

Lemma max_fold_left (args : list Z) :
  forall arg0 : Z, cxxutils.max Z.ltb arg0 args = fold_left Z.max args arg0.
Proof.
  induction args as [|arg1 rest IH]; intros arg0; [reflexivity|].
  cbn [cxxutils.max fold_left].
  now rewrite std_max_Z, IH, fold_left_max_assoc.
Qed.

Lemma or_assign_fold (args : list Z) :
  forall lo hi : Z,
    fold_left (cxxutils.or_assign Z.ltb) args (Range.mk lo hi) =
    Range.mk (fold_left Z.min args lo) (fold_left Z.max args hi).
Proof.
  induction args as [|a rest IH]; intros lo hi; [reflexivity|].
  cbn [fold_left]. unfold cxxutils.or_assign at 2. simpl.
  now rewrite std_min_Z, std_max_Z, IH.
Qed.

(** X9.  Widening the one-point range of the first argument by the
    other arguments, one [|=] after the other, gives the range that
    [range(args...)] returns. *)
Theorem or_assign_builds_range (arg0 : Z) (args : list Z) :
  fold_left (cxxutils.or_assign Z.ltb) args (Range.mk arg0 arg0) =
  cxxutils.range Z.ltb arg0 args.
Proof.
  rewrite or_assign_fold. unfold cxxutils.range.
  now rewrite min_fold_left, max_fold_left.
Qed.



(** X11.  The range of some arguments is never inverted, and clamping
    any of the arguments to it gives that argument back. *)
Theorem clamp_range_argument (x arg0 : Z) (args : list Z) :
  In x (arg0 :: args) ->
  Range.min (cxxutils.range Z.ltb arg0 args) <=
    Range.max (cxxutils.range Z.ltb arg0 args) /\
  cxxutils.clamp Z.ltb x (cxxutils.range Z.ltb arg0 args) = x.
Proof.
  intros Hin. rewrite clamp_Z. unfold cxxutils.range. simpl.
  pose proof (min_le arg0 args) as Hl. pose proof (max_ge arg0 args) as Hu.
  rewrite List.Forall_forall in Hl, Hu.
  specialize (Hl x Hin). specialize (Hu x Hin). simpl in Hl, Hu. lia.
Qed.

Lemma clamp_range_argument_witness :
  In 2 (5 :: [2; 8]) /\
  Range.min (cxxutils.range Z.ltb 5 [2; 8]) <=
    Range.max (cxxutils.range Z.ltb 5 [2; 8]) /\
  cxxutils.clamp Z.ltb 2 (cxxutils.range Z.ltb 5 [2; 8]) = 2.
Proof.
  assert (Hin : In 2 (5 :: [2; 8])) by (right; left; reflexivity).
  split; [exact Hin|].
  exact (clamp_range_argument 2 5 [2; 8] Hin).
Defined.

(** ** [clamp(value, absMax)] *)

Lemma clamp_absMax_signed_Z (value absMax : Z) :
  clamp_absMax_signed value absMax =
  Z.min (Z.max value (- absMax)) absMax.
Proof.
  unfold clamp_absMax_signed, clamp_absMax. rewrite clamp_Z. simpl.
  now replace (-1 * absMax) with (- absMax) by lia.
Qed.

(** X12.  For a signed integer type and a bound that is not negative,
    [clamp(value, absMax)] brings the value into [[-absMax, absMax]],
    leaves a value of that interval as it is, and commutes with
    negation. *)
Theorem clamp_absMax_symmetric (value absMax : Z) :
  0 <= absMax ->
  clamp_absMax_signed value absMax =
    (if value <? - absMax then - absMax
     else if absMax <? value then absMax else value) /\
  clamp_absMax_signed (- value) absMax = - clamp_absMax_signed value absMax.
Proof.
  intros Hpos. rewrite !clamp_absMax_signed_Z. split.
  - destruct (Z.ltb_spec value (- absMax)); destruct (Z.ltb_spec absMax value);
      lia.
  - lia.
Qed.

Lemma clamp_absMax_symmetric_witness :
  0 <= 4 /\
  clamp_absMax_signed (-9) 4 =
    (if -9 <? - 4 then - 4 else if 4 <? -9 then 4 else -9) /\
  clamp_absMax_signed (- -9) 4 = - clamp_absMax_signed (-9) 4.
Proof.
  split; [lia|]. apply (clamp_absMax_symmetric (-9) 4). lia.
Defined.

(** X13.  For a signed integer type and a negative bound the range is
    inverted: [clamp(value, absMax)] returns [absMax] for every value. *)
Theorem clamp_absMax_negative (value absMax : Z) :
  absMax < 0 -> clamp_absMax_signed value absMax = absMax.
Proof. intros Hneg. rewrite clamp_absMax_signed_Z. lia. Qed.

Lemma clamp_absMax_negative_witness :
  -3 < 0 /\ clamp_absMax_signed 0 (-3) = -3.
Proof. split; [lia|]. apply (clamp_absMax_negative 0 (-3)). lia. Defined.

Lemma unsigned_lower_bound (w absMax : Z) :
  0 < w -> 0 < absMax < 2 ^ w ->
  ((-1) mod 2 ^ w * absMax) mod 2 ^ w = 2 ^ w - absMax.
Proof.
  intros Hw Ha.
  assert (Hpow : 0 < 2 ^ w) by (apply Z.pow_pos_nonneg; lia).
  rewrite Z.mul_mod_idemp_l by lia.
  replace (-1 * absMax) with (2 ^ w - absMax + (-1) * 2 ^ w) by lia.
  rewrite Z.mod_add by lia. apply Z.mod_small. lia.
Qed.

(** X14.  For an unsigned integer type of [w] bits the lower bound
    [static_cast<T>(-1) * absMax] wraps to [2 ^ w - absMax].  With a
    bound below [2 ^ (w - 1)] the range is inverted and
    [clamp(value, absMax)] returns [absMax] for every value, also for a
    value below the bound. *)
Theorem clamp_absMax_unsigned_wraps (w value absMax : Z) :
  0 < w -> 0 < absMax < 2 ^ (w - 1) ->
  clamp_absMax_unsigned w value absMax = absMax.
Proof.
  intros Hw Ha.
  assert (Hpow : 2 ^ w = 2 * 2 ^ (w - 1)).
  { replace w with (Z.succ (w - 1)) at 1 by lia. apply Z.pow_succ_r. lia. }
  unfold clamp_absMax_unsigned, clamp_absMax. rewrite clamp_Z. simpl.
  rewrite unsigned_lower_bound by lia. lia.
Qed.

Lemma clamp_absMax_unsigned_wraps_witness :
  0 < 32 /\ 0 < 10 < 2 ^ (32 - 1) /\ clamp_absMax_unsigned 32 3 10 = 10.
Proof.
  split; [lia|]. split; [simpl; lia|].
  apply (clamp_absMax_unsigned_wraps 32 3 10); simpl; lia.
Defined.

(** * Properties of [dround] *)

(** X15.  [dround] returns a whole number: the least one that is not
    below [x] when [dir] is zero or positive, the greatest one that is
    not above [x] when [dir] is negative. *)
Theorem dround_bounds (x dir : Q) :
  (exists n : Z, dround x dir = inject_Z n) /\
  if Qle_bool 0 dir
  then (x <= dround x dir /\ dround x dir < x + 1)%Q
  else (x - 1 < dround x dir /\ dround x dir <= x)%Q.
Proof.
  unfold dround. split.
  - destruct (Qle_bool 0 dir); eexists; reflexivity.
  - destruct (Qle_bool 0 dir).
    + split; [apply Qle_ceiling|].
      pose proof (Qceiling_lt x) as H.
      replace (Qceiling x - 1)%Z with (Qceiling x + -1)%Z in H by lia.
      rewrite inject_Z_plus in H.
      apply (Qplus_lt_l _ _ (inject_Z (-1))).
      ring_simplify (x + 1 + inject_Z (-1))%Q. exact H.
    + split; [|apply Qfloor_le].
      pose proof (Qlt_floor x) as H. rewrite inject_Z_plus in H.
      apply (Qplus_lt_l _ _ (inject_Z 1)).
      ring_simplify (x - 1 + inject_Z 1)%Q. exact H.
Qed.

(** X16.  The variant the comment of line 108 considers is the same
    function: multiply by the sign of [dir], round up, multiply by the
    sign again. *)
Theorem dround_by_sign (x dir : Q) :
  let sign : Q := if Qle_bool 0 dir then 1%Q else (-(1))%Q in
  (dround x dir == sign * inject_Z (Qceiling (sign * x)))%Q.
Proof.
  simpl. unfold dround. destruct (Qle_bool 0 dir).
  - rewrite (Qceiling_comp (1 * x)%Q x) by ring. ring.
  - unfold Qceiling. rewrite inject_Z_opp.
    rewrite (Qfloor_comp (- (- (1) * x))%Q x) by ring. ring.
Qed.

(** * Further properties of the singleton *)

(** X17.  After any sequence of calls and releases, a call followed by
    the release of the handle it returned leaves the use counts as they
    were: alive instances stay alive with the same number of owners, and
    an instance built for the call is destroyed again. *)
Theorem getOrCreate_release_round_trip (ops : list singleton.Op) :
  let p := singleton.run ops in
  let handle := fst (singleton.getOrCreate p) in
  let p' := snd (singleton.getOrCreate p) in
  singleton.heap (singleton.shared_destroy (Some handle) p') = singleton.heap p.
Proof.
  simpl.
  destruct (run_at_most_one ops) as [Hempty | (id & n & Hheap & Hguard & Hweak)].
  - rewrite getOrCreate_none_alive by assumption. simpl.
    unfold singleton.shared_destroy. simpl.
    rewrite lookup_singleton_eq. simpl.
    now rewrite delete_singleton_eq, Hempty.
  - rewrite (getOrCreate_alive _ id n) by assumption. simpl.
    unfold singleton.shared_destroy. simpl.
    rewrite lookup_singleton_eq. simpl.
    now rewrite insert_singleton_eq, Hheap.
Qed.

(** X18.  After any sequence of calls and releases, two calls in a row
    return the same instance: the second one calls no factory and adds
    one owner. *)
Theorem getOrCreate_twice (ops : list singleton.Op) :
  let first := singleton.getOrCreate (singleton.run ops) in
  let second := singleton.getOrCreate (snd first) in
  fst second = fst first /\
  singleton.constructed (snd second) = singleton.constructed (snd first) /\
  exists n : nat,
    singleton.heap (snd first) = {[fst first := S n]} /\
    singleton.heap (snd second) = {[fst first := S (S n)]}.
Proof.
  cbv zeta.
  destruct (run_at_most_one ops) as [Hempty | (id & n & Hheap & Hguard & Hweak)].
  - rewrite (getOrCreate_none_alive _ Hempty). cbn [fst snd].
    erewrite (getOrCreate_alive _ _ 0%nat) by reflexivity.
    cbn [fst snd]. repeat split. now exists 0%nat.
  - rewrite (getOrCreate_alive _ id n Hheap Hguard Hweak). cbn [fst snd].
    erewrite (getOrCreate_alive _ id (S n));
      [|reflexivity|exact Hguard|exact Hweak].
    cbn [fst snd]. repeat split. now exists (S n).
Qed.

Lemma existsb_repeat (h id : nat) (n : nat) :
  existsb (Nat.eqb h) (repeat id n) = true -> h = id.
Proof.
  induction n as [|m IH]; simpl; [discriminate|].
  destruct (Nat.eqb_spec h id); [trivial|exact IH].
Qed.

Lemma client_step_proc (c c' : Client) (o : singleton.Op) :
  client_step c o = Some c' -> proc c' = singleton.step (proc c) o.
Proof.
  destruct o as [|h]; simpl.
  - destruct (singleton.getOrCreate (proc c)) as [h p]. intros [= <-].
    reflexivity.
  - destruct (existsb (Nat.eqb h) (held c)); intros [= <-]. reflexivity.
Qed.

Lemma client_step_one_instance (c c' : Client) (o : singleton.Op) :
  one_instance c -> client_step c o = Some c' -> one_instance c'.
Proof.
  intros Hinv Hstep. destruct o as [|h]; simpl in Hstep.
  - destruct Hinv as [[Hheld Hempty] | (id & n & Hheld & Hheap & Hguard & Hweak)].
    + rewrite (getOrCreate_none_alive _ Hempty) in Hstep.
      injection Hstep as <-. right.
      exists (singleton.constructed (proc c)), 0%nat. simpl.
      now rewrite Hheld.
    + rewrite (getOrCreate_alive _ id n Hheap Hguard Hweak) in Hstep.
      injection Hstep as <-. right. exists id, (S n). simpl.
      now rewrite Hheld.
  - destruct (existsb (Nat.eqb h) (held c)) eqn:Hex; [|discriminate].
    injection Hstep as <-.
    destruct Hinv as [[Hheld Hempty] | (id & n & Hheld & Hheap & Hguard & Hweak)].
    + rewrite Hheld in Hex. discriminate.
    + rewrite Hheld in Hex. apply existsb_repeat in Hex. subst h.
      unfold singleton.shared_destroy. rewrite Hheap, lookup_singleton_eq.
      rewrite Hheld. simpl. rewrite Nat.eqb_refl.
      destruct n as [|m].
      * left. simpl. split; [reflexivity|apply delete_singleton_eq].
      * right. exists id, m. simpl. now rewrite insert_singleton_eq.
Qed.

Lemma client_run_from (ops : list singleton.Op) :
  forall c0 c : Client,
    one_instance c0 -> client_run c0 ops = Some c ->
    proc c = fold_left singleton.step ops (proc c0) /\ one_instance c.
Proof.
  induction ops as [|o rest IH]; intros c0 c Hinv Hrun; simpl in Hrun.
  - injection Hrun as <-. now split.
  - destruct (client_step c0 o) as [c1|] eqn:Hstep; [|discriminate].
    destruct (IH c1 c (client_step_one_instance _ _ _ Hinv Hstep) Hrun)
      as [Hproc Hone].
    split; [|exact Hone]. simpl.
    now rewrite <- (client_step_proc _ _ _ Hstep).
Qed.

(** X19.  A caller that releases only handles it holds: at every moment
    all the handles it holds name the same instance, the use count of
    that instance is the number of those handles, and no instance is
    alive when it holds none. *)
Theorem handles_share_one_instance (ops : list singleton.Op) (c : Client) :
  client_run client_initial ops = Some c ->
  proc c = singleton.run ops /\
  ((held c = [] /\ singleton.heap (proc c) = ∅) \/
   exists (id n : nat),
     held c = repeat id (S n) /\ singleton.heap (proc c) = {[id := S n]}).
Proof.
  intros Hrun.
  assert (Hinit : one_instance client_initial) by (left; split; reflexivity).
  destruct (client_run_from ops _ _ Hinit Hrun) as [Hproc Hone].
  split; [exact Hproc|].
  destruct Hone as [H | (id & n & Hheld & Hheap & _)]; [now left|].
  right. now exists id, n.
Qed.

Lemma handles_share_one_instance_witness :
  let ops := [singleton.Get; singleton.Get; singleton.Release 0%nat] in
  let c := {| proc := singleton.run ops; held := [0%nat] |} in
  client_run client_initial ops = Some c /\
  proc c = singleton.run ops /\
  ((held c = [] /\ singleton.heap (proc c) = ∅) \/
   exists (id n : nat),
     held c = repeat id (S n) /\ singleton.heap (proc c) = {[id := S n]}).
Proof.
  simpl.
  assert (Hrun : client_run client_initial
            [singleton.Get; singleton.Get; singleton.Release 0%nat] =
          Some {| proc := singleton.run
                    [singleton.Get; singleton.Get; singleton.Release 0%nat];
                  held := [0%nat] |}) by reflexivity.
  split; [exact Hrun|].
  exact (handles_share_one_instance _ _ Hrun).
Defined.

Lemma shared_destroy_constructed (s : option nat) (p : singleton.Process) :
  singleton.constructed (singleton.shared_destroy s p) = singleton.constructed p.
Proof.
  unfold singleton.shared_destroy. destruct s as [id|]; [|reflexivity].
  destruct (singleton.heap p !! id) as [[|[|n]]|]; reflexivity.
Qed.

Lemma shared_destroy_built (s : option nat) (p : singleton.Process) :
  built p -> built (singleton.shared_destroy s p).
Proof.
  intros Hb id Hsome. rewrite shared_destroy_constructed. apply Hb.
  revert Hsome. unfold singleton.shared_destroy.
  destruct s as [h|]; [|trivial].
  destruct (singleton.heap p !! h) as [[|[|n]]|] eqn:Hh; simpl;
    intros [x Hx].
  - apply lookup_delete_Some in Hx as [_ Hx]. now exists x.
  - apply lookup_delete_Some in Hx as [_ Hx]. now exists x.
  - apply lookup_insert_Some in Hx as [[<- _]|[_ Hx]]; eauto.
  - now exists x.
Qed.

Lemma getOrCreate_handle_built (p : singleton.Process) :
  singleton.at_most_one p -> built p ->
  (fst (singleton.getOrCreate p) <
     singleton.constructed (snd (singleton.getOrCreate p)))%nat /\
  (singleton.constructed p <=
     singleton.constructed (snd (singleton.getOrCreate p)))%nat /\
  built (snd (singleton.getOrCreate p)).
Proof.
  intros [Hempty | (id & n & Hheap & Hguard & Hweak)] Hb.
  - rewrite (getOrCreate_none_alive _ Hempty). cbn [fst snd]. simpl.
    split; [lia|]. split; [lia|].
    intros id [x Hx]. simpl in *.
    apply lookup_singleton_Some in Hx as [<- _]. lia.
  - rewrite (getOrCreate_alive _ id n Hheap Hguard Hweak). cbn [fst snd].
    assert (Hid : (id < singleton.constructed p)%nat).
    { apply Hb. rewrite Hheap, lookup_singleton_eq. eauto. }
    simpl. split; [exact Hid|]. split; [lia|].
    intros id' [x Hx]. simpl in *.
    apply lookup_singleton_Some in Hx as [<- _]. exact Hid.
Qed.

Lemma step_built (p : singleton.Process) (o : singleton.Op) :
  singleton.at_most_one p -> built p ->
  built (singleton.step p o) /\
  (singleton.constructed p <= singleton.constructed (singleton.step p o))%nat.
Proof.
  intros Hone Hb. destruct o as [|h]; unfold singleton.step.
  - destruct (getOrCreate_handle_built p Hone Hb) as (_ & Hle & Hb').
    now split.
  - split; [now apply shared_destroy_built|].
    rewrite shared_destroy_constructed. lia.
Qed.

Lemma fold_constructed_mono (ops : list singleton.Op) :
  forall p : singleton.Process,
    singleton.at_most_one p -> built p ->
    (singleton.constructed p <=
       singleton.constructed (fold_left singleton.step ops p))%nat.
Proof.
  induction ops as [|o rest IH]; intros p Hone Hb; simpl; [lia|].
  destruct (step_built p o Hone Hb) as [Hb' Hle].
  specialize (IH _ (step_at_most_one p o Hone) Hb'). lia.
Qed.

Lemma handles_from_built (ops : list singleton.Op) :
  forall p : singleton.Process,
    singleton.at_most_one p -> built p ->
    List.Forall
      (fun h => (h < singleton.constructed (fold_left singleton.step ops p))%nat)
      (handles_from p ops).
Proof.
  induction ops as [|o rest IH]; intros p Hone Hb;
    cbn [fold_left handles_from]; [constructor|].
  destruct (step_built p o Hone Hb) as [Hb' Hle].
  pose proof (step_at_most_one p o Hone) as Hone'.
  apply List.Forall_app. split; [|now apply IH].
  destruct o as [|h]; [|constructor].
  constructor; [|constructor].
  destruct (getOrCreate_handle_built p Hone Hb) as (Hlt & _ & _).
  pose proof (fold_constructed_mono rest _ Hone' Hb') as Hmono.
  eapply Nat.lt_le_trans; [exact Hlt|exact Hmono].
Qed.

(** X20.  Once the instance has expired, the next call returns an
    instance that no earlier call returned: an instance that was
    destroyed never comes back. *)
Theorem getOrCreate_fresh_after_expiry (ops : list singleton.Op) :
  singleton.heap (singleton.run ops) = ∅ ->
  ~ In (fst (singleton.getOrCreate (singleton.run ops))) (handles ops).
Proof.
  intros Hempty Hin.
  rewrite (getOrCreate_none_alive _ Hempty) in Hin. cbn [fst] in Hin.
  assert (Hinit : singleton.at_most_one singleton.initial) by (now left).
  assert (Hb : built singleton.initial).
  { intros id [x Hx]. simpl in Hx. now rewrite lookup_empty in Hx. }
  pose proof (handles_from_built ops _ Hinit Hb) as Hall.
  rewrite List.Forall_forall in Hall.
  specialize (Hall _ Hin). unfold singleton.run in Hall. lia.
Qed.

Lemma getOrCreate_fresh_after_expiry_witness :
  let ops := [singleton.Get; singleton.Release 0%nat] in
  singleton.heap (singleton.run ops) = ∅ /\
  ~ In (fst (singleton.getOrCreate (singleton.run ops))) (handles ops).
Proof.
  assert (Hempty : singleton.heap
            (singleton.run [singleton.Get; singleton.Release 0%nat]) = ∅)
    by (vm_compute; reflexivity).
  split; [exact Hempty|].
  exact (getOrCreate_fresh_after_expiry _ Hempty).
Defined.
